From Stdlib Require Import ZArith Lia List Bool.
Open Scope Z_scope.

(** * Shallow embedding of [dynalloc.c]

    Memory is a flat byte-addressed store over the 64-bit address space;
    [size_t] values and pointers are integers in [0, 2^64) with their
    wrap-around written out.  The global [first] and the program break are
    kept next to the memory.  An access through a null pointer, or one that
    runs past the end of the address space, faults. *)

Definition W : Z := 2 ^ 64.
Definition NULL : Z := 0.

(** [sizeof(Header)] on LP64: two pointers, a [size_t], a [char], padded to 32. *)
Definition SIZEOF_HEADER : Z := 32.
(** [sizeof(header)] where [header : Header*] (the expression used in
    [split_block]): the size of a pointer. *)
Definition SIZEOF_HEADER_PTR : Z := 8.
Definition MIN_BLOCK_SIZE : Z := 32.

(** Field offsets of [struct Header]. *)
Definition OFF_NEXT : Z := 0.
Definition OFF_PREV : Z := 8.
Definition OFF_SIZE : Z := 16.
Definition OFF_FREE : Z := 24.

Record state := mkState {
  mem : Z -> Z;        (* one byte per address *)
  first : Z;           (* the global [Header* first] *)
  brk_ptr : Z;         (* current program break *)
  heap_start : Z;      (* initial program break *)
  heap_limit : Z       (* highest break the OS grants *)
}.

Definition set_mem (st : state) (m : Z -> Z) : state :=
  mkState m (first st) (brk_ptr st) (heap_start st) (heap_limit st).
Definition set_first_st (st : state) (f : Z) : state :=
  mkState (mem st) f (brk_ptr st) (heap_start st) (heap_limit st).
Definition set_brk_st (st : state) (b : Z) : state :=
  mkState (mem st) (first st) b (heap_start st) (heap_limit st).

(** ** A state and error monad *)

Inductive outcome (A : Type) : Type :=
| Ok (st : state) (v : A)
| Fault (p : Z)          (* invalid access through base pointer [p] *)
| OutOfFuel.
Arguments Ok {A} st v.
Arguments Fault {A} p.
Arguments OutOfFuel {A}.

Definition M (A : Type) : Type := state -> outcome A.

Definition ret {A} (v : A) : M A := fun st => Ok st v.
Definition bind {A B} (m : M A) (k : A -> M B) : M B :=
  fun st => match m st with
            | Ok st' v => k v st'
            | Fault p => Fault p
            | OutOfFuel => OutOfFuel
            end.
Definition out_of_fuel {A} : M A := fun _ => OutOfFuel.

Notation "x <- m ;; k" := (bind m (fun x => k))
  (at level 61, m at next level, right associativity).
Notation "m ;; k" := (bind m (fun _ => k)) (at level 61, right associativity).

(** ** Bytes *)

Definition upd (m : Z -> Z) (a v : Z) : Z -> Z :=
  fun x => if Z.eqb x a then v else m x.

(** Little-endian load and store of [k] bytes. *)
Fixpoint load_bytes (m : Z -> Z) (a : Z) (k : nat) : Z :=
  match k with
  | O => 0
  | S k' => m a + 256 * load_bytes m (a + 1) k'
  end.

Fixpoint store_bytes (m : Z -> Z) (a v : Z) (k : nat) : Z -> Z :=
  match k with
  | O => m
  | S k' => store_bytes (upd m a (v mod 256)) (a + 1) (v / 256) k'
  end.

Definition valid (p off len : Z) : bool :=
  negb (Z.eqb p NULL) && (0 <=? p) && (p + off + len <=? W).

Definition peek (st : state) (p off : Z) (k : nat) : option Z :=
  if valid p off (Z.of_nat k) then Some (load_bytes (mem st) (p + off) k)
  else None.

Definition load (p off : Z) (k : nat) : M Z :=
  fun st => match peek st p off k with
            | Some v => Ok st v
            | None => Fault p
            end.

Definition store (p off : Z) (k : nat) (v : Z) : M unit :=
  fun st => if valid p off (Z.of_nat k)
            then Ok (set_mem st (store_bytes (mem st) (p + off) v k)) tt
            else Fault p.

(** ** Header fields *)

Definition get_next (h : Z) : M Z := load h OFF_NEXT 8.
Definition get_prev (h : Z) : M Z := load h OFF_PREV 8.
Definition get_size (h : Z) : M Z := load h OFF_SIZE 8.
Definition get_free (h : Z) : M Z := load h OFF_FREE 1.
Definition set_next (h v : Z) : M unit := store h OFF_NEXT 8 v.
Definition set_prev (h v : Z) : M unit := store h OFF_PREV 8 v.
Definition set_size (h v : Z) : M unit := store h OFF_SIZE 8 v.
Definition set_free (h v : Z) : M unit := store h OFF_FREE 1 v.

Definition get_first : M Z := fun st => Ok st (first st).
Definition set_first (v : Z) : M unit := fun st => Ok (set_first_st st v) tt.

(** ** The heap boundary: [sbrk] and [brk] *)

(** Conversion of a [size_t] to the [intptr_t] argument of [sbrk]. *)
Definition to_intptr (x : Z) : Z := if x <? 2 ^ 63 then x else x - W.

(** [sbrk(incr)]: returns the old break, or [(void* )-1] if refused. *)
Definition sbrk (incr : Z) : M Z :=
  fun st =>
    let old := brk_ptr st in
    let nw := old + incr in
    if (heap_start st <=? nw) && (nw <=? heap_limit st)
    then Ok (set_brk_st st nw) old
    else Ok st (W - 1).

(** [brk(addr)]: returns 0, or -1 if refused. *)
Definition brk (addr : Z) : M Z :=
  fun st =>
    if (heap_start st <=? addr) && (addr <=? heap_limit st)
    then Ok (set_brk_st st addr) 0
    else Ok st (-1).

(** ** [merge_blocks] (lines 35-43) *)

Definition merge_blocks (head1 head2 : Z) : M Z :=
  let first_header := if head1 >? head2 then head2 else head1 in
  let second_header := if head1 >? head2 then head1 else head2 in
  s1 <- get_size head1 ;;
  s2 <- get_size head2 ;;
  set_size first_header ((SIZEOF_HEADER + s1 + s2) mod W) ;;
  n <- get_next second_header ;;
  set_next first_header n ;;
  n' <- get_next second_header ;;
  (if n' =? NULL then ret tt
   else n'' <- get_next second_header ;; set_prev n'' first_header) ;;
  ret first_header.

(** ** [split_block] (lines 52-64) *)

Definition split_block (header new_size : Z) : M Z :=
  s <- get_size header ;;
  let new_block_size := (s - new_size - SIZEOF_HEADER_PTR) mod W in
  if new_block_size <? MIN_BLOCK_SIZE then ret NULL else
  let new_header := (header + SIZEOF_HEADER + new_size) mod W in
  set_prev new_header header ;;
  hn <- get_next header ;;
  set_next new_header hn ;;
  set_size new_header new_block_size ;;
  set_free new_header 1 ;;
  hn' <- get_next header ;;
  set_prev hn' new_header ;;
  set_next header new_header ;;
  ret new_header.

(** ** [malloc] (lines 79-113) *)

(** The inner [while(1)] of lines 89-94: merge [curr] with its successor
    while both are free. *)
Fixpoint merge_run (fuel : nat) (curr : Z) : M Z :=
  match fuel with
  | O => out_of_fuel
  | S fuel' =>
    f <- get_free curr ;;
    if f =? 0 then ret curr else
    n <- get_next curr ;;
    if n =? NULL then ret curr else
    n1 <- get_next curr ;;
    nf <- get_free n1 ;;
    if nf =? 0 then ret curr else
    n2 <- get_next curr ;;
    c <- merge_blocks curr n2 ;;
    merge_run fuel' c
  end.

(** The outer [while(curr != NULL)] of lines 88-102: [inl p] when [malloc]
    returns [p] from inside the loop, [inr last] when the list is exhausted. *)
Fixpoint scan (fuel : nat) (size last curr : Z) : M (Z + Z) :=
  match fuel with
  | O => out_of_fuel
  | S fuel' =>
    if curr =? NULL then ret (inr last) else
    c <- merge_run fuel' curr ;;
    let advance := (nx <- get_next c ;; scan fuel' size c nx) in
    f <- get_free c ;;
    if f =? 0 then advance else
    s <- get_size c ;;
    if size <=? s then
      split_block c size ;;
      set_free c 0 ;;
      ret (inl ((c + SIZEOF_HEADER) mod W))
    else advance
  end.

Definition malloc (fuel : nat) (size0 : Z) : M Z :=
  let size := if size0 <? MIN_BLOCK_SIZE then MIN_BLOCK_SIZE else size0 in
  fst <- get_first ;;
  r <- scan fuel size NULL fst ;;
  match r with
  | inl p => ret p
  | inr last =>
    new_block <- sbrk (to_intptr ((size + SIZEOF_HEADER) mod W)) ;;
    set_prev new_block last ;;
    set_next new_block NULL ;;
    set_size new_block size ;;
    set_free new_block 0 ;;
    f <- get_first ;;
    (if f =? NULL then set_first new_block else ret tt) ;;
    ret ((new_block + SIZEOF_HEADER) mod W)
  end.

(** The request size [malloc] works with after line 82,
    [size = max(size, MIN_BLOCK_SIZE)]. *)
Definition clamp (size : Z) : Z :=
  if size <? MIN_BLOCK_SIZE then MIN_BLOCK_SIZE else size.

(** ** [free] (lines 120-138) *)

(** The backward walk of lines 128-133 (and 154-159). *)
Fixpoint walk_back (fuel : nat) (curr : Z) : M Z :=
  match fuel with
  | O => out_of_fuel
  | S fuel' =>
    f <- get_first ;;
    if curr =? f then ret curr else
    p <- get_prev curr ;;
    pf <- get_free p ;;
    if pf =? 0 then ret curr else
    p' <- get_prev curr ;;
    walk_back fuel' p'
  end.

(** Lines 127-136 (and 154-162): shrink the heap past the trailing free run. *)
Definition release_tail (fuel : nat) (header : Z) : M unit :=
  curr <- walk_back fuel header ;;
  f <- get_first ;;
  (if curr =? f then set_first NULL else ret tt) ;;
  brk curr ;;
  ret tt.

Definition free (fuel : nat) (address : Z) : M unit :=
  if address =? NULL then ret tt else
  let header := (address - SIZEOF_HEADER) mod W in
  set_free header 1 ;;
  n <- get_next header ;;
  if n =? NULL then release_tail fuel header else ret tt.

(** ** [free_with_caution] (lines 145-168) *)

Fixpoint caution_scan (fuel : nat) (header curr : Z) : M unit :=
  match fuel with
  | O => out_of_fuel
  | S fuel' =>
    if curr =? NULL then ret tt else
    if curr =? header then
      set_free curr 1 ;;
      n <- get_next curr ;;
      if n =? NULL then release_tail fuel' curr else ret tt
    else
      nx <- get_next curr ;;
      caution_scan fuel' header nx
  end.

Definition free_with_caution (fuel : nat) (address : Z) : M unit :=
  curr <- get_first ;;
  if address =? NULL then ret tt else
  let header := (address - SIZEOF_HEADER) mod W in
  caution_scan fuel header curr.

(** ** [copy_data] (lines 173-179); [src->size] is re-read at every test. *)

Fixpoint copy_loop (fuel : nat) (src src_block dst_block i : Z) : M unit :=
  match fuel with
  | O => out_of_fuel
  | S fuel' =>
    s <- get_size src ;;
    if i <? s then
      b <- load ((src_block + i) mod W) 0 1 ;;
      store ((dst_block + i) mod W) 0 1 b ;;
      copy_loop fuel' src src_block dst_block ((i + 1) mod W)
    else ret tt
  end.

Definition copy_data (fuel : nat) (src dst : Z) : M unit :=
  let src_block := (src + SIZEOF_HEADER) mod W in
  let dst_block := (dst + SIZEOF_HEADER) mod W in
  copy_loop fuel src src_block dst_block 0.

(** ** [realloc] (lines 184-219) *)

(** The loop of lines 203-204. *)
Fixpoint absorb_loop (fuel : nat) (header : Z) : M unit :=
  match fuel with
  | O => out_of_fuel
  | S fuel' =>
    n1 <- get_next header ;;
    n2 <- get_next n1 ;;
    f <- get_free n2 ;;
    if f =? 0 then ret tt else
    a <- get_next header ;;
    b0 <- get_next header ;;
    b <- get_next b0 ;;
    merge_blocks a b ;;
    absorb_loop fuel' header
  end.

Definition realloc (fuel : nat) (address size : Z) : M Z :=
  if address =? NULL then ret NULL else
  let header := (address - SIZEOF_HEADER) mod W in
  hs <- get_size header ;;
  let size_diff := (size - hs) mod W in
  if size_diff <? 0 then
    split_block header size ;;
    ret address
  else
  n <- get_next header ;;
  if n =? NULL then
    sbrk (to_intptr size_diff) ;;
    set_size header size ;;
    ret address
  else
  let fallback :=
    (new_address <- malloc fuel size ;;
     if new_address =? NULL then ret NULL else
     copy_data fuel header ((new_address - SIZEOF_HEADER) mod W) ;;
     free fuel address ;;
     ret new_address) in
  n1 <- get_next header ;;
  f1 <- get_free n1 ;;
  if f1 =? 0 then fallback else
  absorb_loop fuel header ;;
  n2 <- get_next header ;;
  s2 <- get_size n2 ;;
  if size_diff <=? s2 then
    n3 <- get_next header ;;
    split_block n3 size_diff ;;
    n4 <- get_next header ;;
    merge_blocks header n4 ;;
    ret address
  else fallback.

(** ** Observations and test layouts *)

Definition peek_next (st : state) (h : Z) : option Z := peek st h OFF_NEXT 8.
Definition peek_prev (st : state) (h : Z) : option Z := peek st h OFF_PREV 8.
Definition peek_size (st : state) (h : Z) : option Z := peek st h OFF_SIZE 8.
Definition peek_free (st : state) (h : Z) : option Z := peek st h OFF_FREE 1.

Definition result_state {A} (o : outcome A) : option state :=
  match o with Ok st _ => Some st | _ => None end.

(** An empty heap: zeroed memory, no block, the break at [start]. *)
Definition init_state (start limit : Z) : state :=
  mkState (fun _ => 0) NULL start start limit.

(** A directory laid out as the data model of the spec describes it:
    headers at increasing addresses, each one right after the previous
    block's data region, linked both ways; [blocks] lists (size, free flag). *)
Fixpoint lay (m : Z -> Z) (prev a : Z) (blocks : list (Z * Z)) : (Z -> Z) * Z :=
  match blocks with
  | nil => (m, a)
  | (sz, fr) :: rest =>
    let nxt := match rest with nil => NULL | _ => a + SIZEOF_HEADER + sz end in
    let m1 := store_bytes m (a + OFF_NEXT) nxt 8 in
    let m2 := store_bytes m1 (a + OFF_PREV) prev 8 in
    let m3 := store_bytes m2 (a + OFF_SIZE) sz 8 in
    let m4 := store_bytes m3 (a + OFF_FREE) fr 1 in
    lay m4 a (a + SIZEOF_HEADER + sz) rest
  end.

Definition layout (start limit : Z) (blocks : list (Z * Z)) : state :=
  let (m, e) := lay (fun _ => 0) NULL start blocks in
  mkState m (match blocks with nil => NULL | _ => start end) e start limit.

Definition HEAP0 : Z := 4096.
Definition LIMIT0 : Z := 4096 + 65536.

(** The state after a store of [k] bytes of [v] at address [a]. *)
Definition st_store (st : state) (a : Z) (k : nat) (v : Z) : state :=
  set_mem st (store_bytes (mem st) a v k).

(** The header reached after [k] steps along the [next] links from [curr]. *)
Fixpoint nth_header (st : state) (k : nat) (curr : Z) : option Z :=
  if curr =? NULL then None else
  match k with
  | O => Some curr
  | S k' => match peek_next st curr with
            | Some nx => nth_header st k' nx
            | None => None
            end
  end.

(** A header is tracked when the directory chain from [first] reaches it. *)
Definition tracked (st : state) (h : Z) : Prop :=
  exists k, nth_header st k (first st) = Some h.

(** The backward walk of [free] from [curr] visits the headers [run]
    (each one free, each the [prev] of the one before) and stops at the last
    one, either because it is [first] or because its predecessor is in use;
    every header involved lies below [bound]. *)
Definition run_end (st : state) (bound last : Z) : Prop :=
  last = first st \/
  (last <> first st /\ exists q, peek_prev st last = Some q /\ 0 < q /\
     q + SIZEOF_HEADER <= bound /\ peek_free st q = Some 0).

Fixpoint back_chain (st : state) (bound curr : Z) (run : list Z) : Prop :=
  match run with
  | nil => run_end st bound curr
  | p :: run' =>
    curr <> first st /\ peek_prev st curr = Some p /\ 0 < p /\
    p + SIZEOF_HEADER <= bound /\
    (exists f, peek_free st p = Some f /\ f <> 0) /\ back_chain st bound p run'
  end.

(** Observation of a run: [f] applied to the final state and result. *)
Definition after {A B} (o : outcome A) (f : state -> A -> B) : option B :=
  match o with Ok st v => Some (f st v) | _ => None end.

(** Directory layouts used as concrete inputs below. *)
Definition L_two : state := layout HEAP0 LIMIT0 ((100, 0) :: (40, 0) :: nil).
Definition L_three : state :=
  layout HEAP0 LIMIT0 ((100, 0) :: (40, 1) :: (40, 0) :: nil).
Definition L_free_tail : state := layout HEAP0 LIMIT0 ((200, 1) :: nil).
Definition L_absorb : state := layout HEAP0 LIMIT0 ((40, 0) :: (40, 1) :: nil).
Definition L_exact : state := layout HEAP0 LIMIT0 ((32, 1) :: (40, 0) :: nil).
(** Heaps whose break is already at the OS limit. *)
Definition L_full : state := layout HEAP0 (HEAP0 + 144) ((40, 0) :: (40, 0) :: nil).
Definition L_tail_full : state := layout HEAP0 (HEAP0 + 72) ((40, 0) :: nil).
Definition L_split : state := layout HEAP0 LIMIT0 ((72, 1) :: (40, 0) :: nil).
Definition L_fit : state := layout HEAP0 LIMIT0 ((40, 1) :: nil).
Definition L_absorb3 : state :=
  layout HEAP0 LIMIT0 ((40, 0) :: (40, 1) :: (40, 0) :: nil).

(** * Memory lemmas *)

Lemma store_bytes_other (j : nat) (m : Z -> Z) (b v x : Z) :
  x < b \/ b + Z.of_nat j <= x -> store_bytes m b v j x = m x.
Proof.
  revert m b v. induction j as [|j IH]; intros m b v Hx; simpl; [reflexivity|].
  rewrite IH by lia. unfold upd. destruct (Z.eqb_spec x b); [lia | reflexivity].
Qed.

Lemma load_bytes_ext (k : nat) (m1 m2 : Z -> Z) (a : Z) :
  (forall x, a <= x < a + Z.of_nat k -> m1 x = m2 x) ->
  load_bytes m1 a k = load_bytes m2 a k.
Proof.
  revert a. induction k as [|k IH]; intros a H; simpl; [reflexivity|].
  rewrite H by lia. rewrite (IH (a + 1)) by (intros; apply H; lia). reflexivity.
Qed.

Lemma load_store_disjoint (k j : nat) (m : Z -> Z) (a b v : Z) :
  a + Z.of_nat k <= b \/ b + Z.of_nat j <= a ->
  load_bytes (store_bytes m b v j) a k = load_bytes m a k.
Proof.
  intros H. apply load_bytes_ext. intros x Hx. apply store_bytes_other. lia.
Qed.

Lemma mod_mul_split (v b c : Z) :
  0 < b -> 0 < c -> v mod (b * c) = v mod b + b * ((v / b) mod c).
Proof.
  intros Hb Hc. symmetry. apply Z.mod_unique_pos with (q := v / b / c).
  - pose proof (Z.mod_pos_bound v b Hb). pose proof (Z.mod_pos_bound (v / b) c Hc). nia.
  - rewrite (Z.div_mod v b) at 1 by lia. rewrite (Z.div_mod (v / b) c) at 1 by lia. ring.
Qed.

Lemma load_store_same (k : nat) (m : Z -> Z) (a v : Z) :
  load_bytes (store_bytes m a v k) a k = v mod 256 ^ Z.of_nat k.
Proof.
  revert m a v. induction k as [|k IH]; intros m a v;
    cbn [load_bytes store_bytes].
  - rewrite Z.mod_1_r. reflexivity.
  - rewrite IH. rewrite store_bytes_other by lia. unfold upd.
    rewrite Z.eqb_refl. rewrite Nat2Z.inj_succ, Z.pow_succ_r by lia.
    rewrite mod_mul_split by lia. reflexivity.
Qed.

Lemma bind_load {B} (st : state) (p off : Z) (k : nat) (v : Z) (f : Z -> M B) :
  peek st p off k = Some v -> bind (load p off k) f st = f v st.
Proof. intros H. unfold bind, load. rewrite H. reflexivity. Qed.

Lemma bind_store {B} (st : state) (p off : Z) (k : nat) (v : Z) (f : unit -> M B) :
  valid p off (Z.of_nat k) = true ->
  bind (store p off k v) f st = f tt (st_store st (p + off) k v).
Proof. intros H. unfold bind, store. rewrite H. reflexivity. Qed.

Lemma bind_ret {A B} (st : state) (v : A) (f : A -> M B) :
  bind (ret v) f st = f v st.
Proof. reflexivity. Qed.

Lemma bind_assoc {A B C} (m : M A) (f : A -> M B) (g : B -> M C) (st : state) :
  bind (bind m f) g st = bind m (fun x => bind (f x) g) st.
Proof. unfold bind. destruct (m st); reflexivity. Qed.

Lemma valid_iff (p off len : Z) :
  valid p off len = true <-> p <> 0 /\ 0 <= p /\ p + off + len <= W.
Proof.
  unfold valid, NULL. rewrite !andb_true_iff, negb_true_iff, Z.eqb_neq, Z.leb_le, Z.leb_le.
  tauto.
Qed.

Lemma peek_store_other (st : state) (a : Z) (k : nat) (v q off : Z) (k' : nat) :
  q + off + Z.of_nat k' <= a \/ a + Z.of_nat k <= q + off ->
  peek (st_store st a k v) q off k' = peek st q off k'.
Proof.
  intros H. unfold peek, st_store. destruct (valid q off (Z.of_nat k')); [|reflexivity].
  simpl. rewrite load_store_disjoint by lia. reflexivity.
Qed.

Lemma peek_store_same (st : state) (p off : Z) (k : nat) (v : Z) :
  valid p off (Z.of_nat k) = true ->
  peek (st_store st (p + off) k v) p off k = Some (v mod 256 ^ Z.of_nat k).
Proof.
  intros H. unfold peek, st_store. rewrite H. simpl. rewrite load_store_same. reflexivity.
Qed.

Lemma peek_valid (st : state) (p off : Z) (k : nat) (v : Z) :
  peek st p off k = Some v -> valid p off (Z.of_nat k) = true.
Proof. unfold peek. destruct (valid p off (Z.of_nat k)); congruence. Qed.

Lemma peek_set_first (st : state) (f p off : Z) (k : nat) :
  peek (set_first_st st f) p off k = peek st p off k.
Proof. reflexivity. Qed.

Lemma peek_set_brk (st : state) (b p off : Z) (k : nat) :
  peek (set_brk_st st b) p off k = peek st p off k.
Proof. reflexivity. Qed.

Lemma W_eq : W = 256 ^ Z.of_nat 8.
Proof. reflexivity. Qed.

Ltac unfold_consts :=
  unfold W, NULL, SIZEOF_HEADER, SIZEOF_HEADER_PTR, MIN_BLOCK_SIZE,
    OFF_NEXT, OFF_PREV, OFF_SIZE, OFF_FREE in *.

Ltac arith := unfold_consts; simpl Z.of_nat in *; lia.

Ltac vld := apply valid_iff; arith.

(** Rewrite a [peek] through the stores that precede it. *)
Ltac peek_simp :=
  repeat first
    [ rewrite peek_set_first
    | rewrite peek_set_brk
    | rewrite peek_store_same by vld
    | rewrite peek_store_other by arith ].

Module Merge.

(** C6: [merge_blocks a b], where [b] starts right after [a]'s data region,
    gives [a] the size [sizeof(Header) + a.size + b.size], makes [a.next]
    be [b.next], repoints that successor's [prev] to [a] when it exists,
    and does not touch [a]'s free flag.  (The theorem needs neither that
    [b] is free nor that [a.next = b]: merge reads neither.) *)
Theorem merge_blocks_absorbs (st : state) (a b sa sb fa nb : Z) :
  0 < a -> 0 <= sa -> 0 <= sb ->
  b = a + SIZEOF_HEADER + sa ->
  b + SIZEOF_HEADER + sb <= W ->
  peek_size st a = Some sa -> peek_size st b = Some sb ->
  peek_free st a = Some fa -> peek_next st b = Some nb ->
  (nb = NULL \/ (b + SIZEOF_HEADER + sb <= nb /\ nb + SIZEOF_HEADER <= W)) ->
  exists st',
    merge_blocks a b st = Ok st' a /\
    peek_size st' a = Some (SIZEOF_HEADER + sa + sb) /\
    peek_next st' a = Some nb /\
    peek_free st' a = Some fa /\
    (nb <> NULL -> peek_prev st' nb = Some a).
Proof.
  intros Ha Hsa Hsb Hb Hend Psa Psb Pfa Pnb Hnb.
  unfold peek_size, peek_free, peek_next, peek_prev in *.
  pose proof (peek_valid _ _ _ _ _ Psa) as Va. apply valid_iff in Va.
  unfold merge_blocks.
  replace (a >? b) with false by (symmetry; rewrite Z.gtb_ltb; apply Z.ltb_ge; arith).
  unfold get_size, get_next, set_size, set_next, set_prev.
  rewrite (bind_load _ _ _ _ _ _ Psa); cbv beta.
  rewrite (bind_load _ _ _ _ _ _ Psb); cbv beta.
  rewrite bind_store by vld; cbv beta.
  rewrite (bind_load _ _ _ _ nb) by (peek_simp; exact Pnb); cbv beta.
  rewrite bind_store by vld; cbv beta.
  rewrite (bind_load _ _ _ _ nb) by (peek_simp; exact Pnb); cbv beta.
  destruct (Z.eqb_spec nb NULL) as [Hn0 | Hn0].
  - rewrite bind_ret. eexists. split; [reflexivity|].
    subst nb. peek_simp. rewrite <- !W_eq.
    rewrite (Z.mod_small (SIZEOF_HEADER + sa + sb)) by arith.
    split; [f_equal; apply Z.mod_small; arith|].
    split; [reflexivity|].
    split; [exact Pfa|]. intros C; congruence.
  - destruct Hnb as [Hnb | Hnb]; [congruence|].
    rewrite bind_assoc.
    rewrite (bind_load _ _ _ _ nb) by (peek_simp; exact Pnb); cbv beta.
    rewrite bind_store by vld.
    eexists. split; [reflexivity|].
    peek_simp. rewrite <- !W_eq.
    rewrite (Z.mod_small (SIZEOF_HEADER + sa + sb)) by arith.
    split; [f_equal; apply Z.mod_small; arith|].
    split; [f_equal; apply Z.mod_small; arith|].
    split; [exact Pfa|].
    intros _. f_equal. apply Z.mod_small; arith.
Qed.

End Merge.

Lemma bind_get_first {B} (st : state) (f : Z -> M B) :
  bind get_first f st = f (first st) st.
Proof. reflexivity. Qed.

Lemma bind_store_null {B} (st : state) (off : Z) (k : nat) (v : Z) (f : unit -> M B) :
  bind (store NULL off k v) f st = Fault NULL.
Proof. reflexivity. Qed.

Lemma bind_load_null {B} (st : state) (off : Z) (k : nat) (f : Z -> M B) :
  bind (load NULL off k) f st = Fault NULL.
Proof. reflexivity. Qed.

Lemma size_t_not_negative (x : Z) : (x mod W <? 0) = false.
Proof.
  apply Z.ltb_ge. apply Z.mod_pos_bound. unfold W. lia.
Qed.

Module Split.

(** C9: once the remainder check of [split_block] passes, the relinking
    step [(header->next)->prev = new_header] dereferences [header->next];
    on a tail block ([next = NULL]) the call faults on that null pointer
    instead of linking the remainder in. *)
Theorem split_block_tail_null_deref (st : state) (h n s : Z) :
  0 < h -> 0 <= n ->
  h + SIZEOF_HEADER + n + SIZEOF_HEADER <= W ->
  peek_size st h = Some s ->
  MIN_BLOCK_SIZE <= (s - n - SIZEOF_HEADER_PTR) mod W ->
  peek_next st h = Some NULL ->
  split_block h n st = Fault NULL.
Proof.
  intros Hh Hn Hend Ps Hchk Pn.
  unfold peek_size, peek_next in *.
  unfold split_block, get_size, get_next, set_prev, set_next, set_size, set_free.
  rewrite (bind_load _ _ _ _ _ _ Ps); cbv beta zeta.
  replace ((s - n - SIZEOF_HEADER_PTR) mod W <? MIN_BLOCK_SIZE) with false
    by (symmetry; apply Z.ltb_ge; exact Hchk).
  replace ((h + SIZEOF_HEADER + n) mod W) with (h + SIZEOF_HEADER + n)
    by (symmetry; apply Z.mod_small; arith).
  rewrite bind_store by vld; cbv beta.
  rewrite (bind_load _ _ _ _ NULL) by (peek_simp; exact Pn); cbv beta.
  rewrite bind_store by vld; cbv beta.
  rewrite bind_store by vld; cbv beta.
  rewrite bind_store by vld; cbv beta.
  rewrite (bind_load _ _ _ _ NULL) by (peek_simp; exact Pn); cbv beta.
  apply bind_store_null.
Qed.

End Split.

Module Realloc.

(** C10: on [realloc]'s absorption path the loop test
    [((header->next)->next)->free] is evaluated before any merge; when the
    free successor is itself the tail, this reads through a null pointer. *)
Theorem realloc_absorb_null_deref (fuel : nat) (st : state) (h s n1 f1 size : Z) :
  0 < h -> h + SIZEOF_HEADER < W ->
  peek_size st h = Some s ->
  peek_next st h = Some n1 -> n1 <> NULL ->
  peek_free st n1 = Some f1 -> f1 <> 0 ->
  peek_next st n1 = Some NULL ->
  realloc (S fuel) (h + SIZEOF_HEADER) size st = Fault NULL.
Proof.
  intros Hh Hend Ps Pn Hn1 Pf Hf1 Pnn.
  unfold peek_size, peek_next, peek_free in *.
  unfold realloc.
  replace (h + SIZEOF_HEADER =? NULL) with false by (symmetry; apply Z.eqb_neq; arith).
  replace ((h + SIZEOF_HEADER - SIZEOF_HEADER) mod W) with h
    by (replace (h + SIZEOF_HEADER - SIZEOF_HEADER) with h by ring;
        symmetry; apply Z.mod_small; arith).
  cbv zeta. unfold get_size, get_next, get_free.
  rewrite (bind_load _ _ _ _ _ _ Ps); cbv beta.
  rewrite size_t_not_negative.
  rewrite (bind_load _ _ _ _ _ _ Pn); cbv beta.
  replace (n1 =? NULL) with false by (symmetry; apply Z.eqb_neq; exact Hn1).
  rewrite (bind_load _ _ _ _ _ _ Pn); cbv beta.
  rewrite (bind_load _ _ _ _ _ _ Pf); cbv beta.
  replace (f1 =? 0) with false by (symmetry; apply Z.eqb_neq; exact Hf1).
  unfold absorb_loop; fold absorb_loop.
  rewrite bind_assoc.
  unfold get_next, get_free.
  rewrite (bind_load _ _ _ _ _ _ Pn); cbv beta.
  rewrite bind_assoc.
  rewrite (bind_load _ _ _ _ _ _ Pnn); cbv beta.
  rewrite bind_assoc.
  apply bind_load_null.
Qed.

End Realloc.

Module Free.

Lemma nth_header_null (st : state) (k : nat) : nth_header st k NULL = None.
Proof. destruct k; reflexivity. Qed.

Lemma nth_header_step (st : state) (k : nat) (curr nx : Z) :
  curr <> NULL -> peek_next st curr = Some nx ->
  nth_header st (S k) curr = nth_header st k nx.
Proof.
  intros H Pn. simpl. rewrite (proj2 (Z.eqb_neq _ _) H), Pn. reflexivity.
Qed.

Lemma caution_scan_not_found (fuel : nat) (st st' : state) (header curr : Z) (u : unit) :
  (forall k, nth_header st k curr <> Some header) ->
  caution_scan fuel header curr st = Ok st' u -> st' = st.
Proof.
  revert curr. induction fuel as [|fuel IH]; intros curr Hnf Hrun; simpl in Hrun.
  - discriminate.
  - destruct (Z.eqb_spec curr NULL) as [E | E].
    + inversion Hrun; reflexivity.
    + destruct (Z.eqb_spec curr header) as [E' | E'].
      * exfalso. apply (Hnf O). simpl. subst. rewrite (proj2 (Z.eqb_neq _ _) E). reflexivity.
      * unfold bind, get_next, load in Hrun.
        destruct (peek st curr OFF_NEXT 8) as [nx|] eqn:Pn; [|discriminate].
        apply (IH nx); [|exact Hrun].
        intros k Hk. apply (Hnf (S k)). simpl.
        rewrite (proj2 (Z.eqb_neq _ _) E). unfold peek_next. rewrite Pn. exact Hk.
Qed.

(** C7: [free(NULL)] and [free_with_caution(NULL)] return without touching
    the state, and [free_with_caution] on an address whose header is not on
    the directory chain leaves the whole state (memory, [first], break)
    unchanged whenever it returns. *)
Theorem free_null_and_caution_untracked (fuel : nat) (st : state) (address : Z) :
  ~ tracked st ((address - SIZEOF_HEADER) mod W) ->
  free fuel NULL st = Ok st tt /\
  free_with_caution fuel NULL st = Ok st tt /\
  (forall st' u, free_with_caution fuel address st = Ok st' u -> st' = st).
Proof.
  intros Hnt. split; [reflexivity|]. split; [reflexivity|].
  intros st' u Hrun. unfold free_with_caution, bind, get_first in Hrun.
  destruct (address =? NULL).
  - inversion Hrun; reflexivity.
  - apply (caution_scan_not_found fuel st st' ((address - SIZEOF_HEADER) mod W) (first st) u); [|exact Hrun].
    intros k Hk. apply Hnt. exists k. exact Hk.
Qed.

End Free.

Module Bugs.

(** C1: [split_block] on a header of size 100 with a successor, asked for
    32 bytes (so the spec's precondition 100 - 32 - 32 >= 32 holds): the
    remainder header at 4160 gets size 60 (= 100 - 32 - sizeof(Header* ))
    instead of 36, and [header->size] stays 100 instead of 32; the remainder's
    data region then runs 24 bytes into the next header at 4228. *)
Theorem split_block_wrong_sizes :
  after (split_block 4096 32 L_two)
    (fun st nh => (nh, peek_size st nh, peek_size st 4096,
                   peek_next st 4096, peek_prev st 4228))
  = Some (4160, Some 60, Some 100, Some 4160, Some 4160).
Proof. vm_compute. reflexivity. Qed.

(** C2: [size_diff] is a [size_t], so [size_diff < 0] never holds and the
    shrink branch is dead: shrinking the non-tail block at 4096 (size 100)
    to 32 takes the fallback, returns a fresh pointer 4332 instead of 4128,
    and frees the original block. *)
Theorem realloc_shrink_moves_block :
  after (realloc 200 4128 32 L_two)
    (fun st p => (p, peek_size st 4096, peek_free st 4096))
  = Some (4332, Some 100, Some 1).
Proof. vm_compute. reflexivity. Qed.

(** C3: after two [malloc(40)] calls on an empty heap, the second header
    (4168) has [prev = 4096] but the first header's [next] is still NULL:
    the new tail is never linked from the old one. *)
Theorem malloc_does_not_link_new_tail :
  after (bind (malloc 100 40) (fun _ => malloc 100 40) (init_state HEAP0 LIMIT0))
    (fun st p => (p, first st, peek_next st 4096, peek_prev st 4168))
  = Some (4200, 4096, Some NULL, Some 4096).
Proof. vm_compute. reflexivity. Qed.

(** C4: when [sbrk] refuses, [malloc] does not test for [(void* )-1] and
    writes the new header through it (a fault, not a NULL return); and on
    [realloc]'s tail-growth path the refused [sbrk] is ignored: the same
    non-null pointer is returned and the size field is changed from 40 to
    100 while the break stays at 4168. *)
Theorem growth_failure_not_reported :
  malloc 100 40 (init_state HEAP0 (HEAP0 + 10)) = Fault (W - 1) /\
  peek_size L_tail_full 4096 = Some 40 /\
  after (realloc 100 4128 100 L_tail_full)
    (fun st p => (p, brk_ptr st, peek_size st 4096))
  = Some (4128, 4168, Some 100).
Proof. split; [|split]; vm_compute; reflexivity. Qed.

(** C5: [split_block(h, 40)] with [h.size = 100] (spec remainder
    100 - 40 - 32 = 28 < 32) still splits, with a remainder of size 52 and
    [h.next] changed; and with [h.size = 32], [n = 32] the [size_t]
    subtraction wraps, so a remainder of size 2^64 - 8 is created. *)
Theorem split_block_sub_floor_split :
  after (split_block 4096 40 L_two)
    (fun st nh => (nh, peek_next st 4096, peek_size st nh))
  = Some (4168, Some 4168, Some 52) /\
  after (split_block 4096 32 L_exact) (fun st nh => (nh, peek_size st nh))
  = Some (4160, Some (W - 8)).
Proof. split; vm_compute; reflexivity. Qed.

(** C8: growing the non-tail block at 4096 when the heap cannot grow:
    the fallback [malloc] faults on the unchecked [(void* )-1] from [sbrk],
    so [realloc] never reaches its [if(!new_address) return NULL]. *)
Theorem realloc_fallback_growth_failure :
  realloc 100 4128 100 L_full = Fault (W - 1).
Proof. vm_compute. reflexivity. Qed.

(** [malloc] does call [split_block] on a free tail block: on a directory
    holding one free block of size 200, [malloc(40)] faults on NULL. *)
Lemma malloc_free_tail_null_deref : malloc 100 40 L_free_tail = Fault NULL.
Proof. vm_compute. reflexivity. Qed.

End Bugs.

(** * Witnesses *)

Lemma merge_blocks_absorbs_witness :
  exists st', merge_blocks 4096 4228 L_three = Ok st' 4096 /\
    peek_size st' 4096 = Some (SIZEOF_HEADER + 100 + 40) /\
    peek_next st' 4096 = Some 4300 /\
    peek_free st' 4096 = Some 0 /\
    (4300 <> NULL -> peek_prev st' 4300 = Some 4096).
Proof.
  apply (Merge.merge_blocks_absorbs L_three 4096 4228 100 40 0 4300);
    first [ vm_compute; reflexivity | vm_compute; congruence
          | right; split; vm_compute; congruence ].
Defined.

Lemma split_block_tail_null_deref_witness :
  split_block 4096 40 L_free_tail = Fault NULL.
Proof.
  apply (Split.split_block_tail_null_deref L_free_tail 4096 40 200);
    first [ vm_compute; reflexivity | vm_compute; congruence ].
Defined.

Lemma realloc_absorb_null_deref_witness :
  realloc 1 (4096 + SIZEOF_HEADER) 60 L_absorb = Fault NULL.
Proof.
  apply (Realloc.realloc_absorb_null_deref 0 L_absorb 4096 40 4168 1 60);
    first [ vm_compute; reflexivity | vm_compute; congruence ].
Defined.

Lemma free_null_and_caution_untracked_witness :
  free 10 NULL L_two = Ok L_two tt /\
  free_with_caution 10 NULL L_two = Ok L_two tt /\
  (forall st' u, free_with_caution 10 9999 L_two = Ok st' u -> st' = L_two).
Proof.
  apply (Free.free_null_and_caution_untracked 10 L_two 9999).
  intros [k Hk]. destruct k as [|[|k]]; [vm_compute in Hk; discriminate ..|].
  rewrite (Free.nth_header_step _ _ 4096 4228) in Hk
    by (vm_compute; first [reflexivity | congruence]).
  rewrite (Free.nth_header_step _ _ 4228 NULL) in Hk
    by (vm_compute; first [reflexivity | congruence]).
  rewrite Free.nth_header_null in Hk. discriminate.
Defined.

(** * Further properties of the allocator *)

(** Symbolic execution: push a run through the loads and stores whose
    addresses are known. *)
Ltac run_step :=
  first
    [ rewrite bind_assoc
    | rewrite bind_ret
    | rewrite bind_store by vld; cbv beta
    | erewrite bind_load by (peek_simp; eassumption); cbv beta ].

Ltac run := repeat run_step.

Module SplitMore.


(** A split of a block that has a successor [nx] lying past the new
    header: the new header at [h + sizeof(Header) + n] is free, has
    [prev = h], [next = nx] and size [size - n - 8] (mod 2^64); [nx.prev]
    and [h.next] point to it; [h]'s own size and free flag are kept. *)
Theorem split_block_links (st : state) (h n s nx f : Z) :
  0 < h -> 0 <= n ->
  peek_size st h = Some s -> peek_next st h = Some nx -> peek_free st h = Some f ->
  MIN_BLOCK_SIZE <= (s - n - SIZEOF_HEADER_PTR) mod W ->
  h + SIZEOF_HEADER + n + SIZEOF_HEADER <= nx -> nx + SIZEOF_HEADER <= W ->
  exists st',
    split_block h n st = Ok st' (h + SIZEOF_HEADER + n) /\
    peek_prev st' (h + SIZEOF_HEADER + n) = Some h /\
    peek_next st' (h + SIZEOF_HEADER + n) = Some nx /\
    peek_size st' (h + SIZEOF_HEADER + n) = Some ((s - n - SIZEOF_HEADER_PTR) mod W) /\
    peek_free st' (h + SIZEOF_HEADER + n) = Some 1 /\
    peek_prev st' nx = Some (h + SIZEOF_HEADER + n) /\
    peek_next st' h = Some (h + SIZEOF_HEADER + n) /\
    peek_size st' h = Some s /\
    peek_free st' h = Some f.
Proof.
  intros Hh Hn Ps Pn Pf Hchk Hnx HW.
  unfold peek_size, peek_next, peek_free, peek_prev in *.
  unfold split_block, get_size, get_next, set_prev, set_next, set_size, set_free.
  rewrite (bind_load _ _ _ _ _ _ Ps); cbv beta zeta.
  replace ((s - n - SIZEOF_HEADER_PTR) mod W <? MIN_BLOCK_SIZE) with false
    by (symmetry; apply Z.ltb_ge; exact Hchk).
  replace ((h + SIZEOF_HEADER + n) mod W) with (h + SIZEOF_HEADER + n)
    by (symmetry; apply Z.mod_small; arith).
  pose proof (Z.mod_pos_bound (s - n - SIZEOF_HEADER_PTR) W ltac:(unfold W; lia)).
  run.
  eexists. split; [reflexivity|].
  peek_simp. rewrite <- !W_eq.
  repeat split; try assumption; f_equal; try reflexivity;
    first [ apply Z.mod_small; arith | apply Z.mod_mod; unfold W; lia ].
Qed.

End SplitMore.

Module MergeMore.

(** Through the [min]/[max] macros, [merge_blocks] does not depend on the
    order of its arguments (when both size fields are readable). *)
Theorem merge_blocks_comm (st : state) (a b sa sb : Z) :
  peek_size st a = Some sa -> peek_size st b = Some sb ->
  merge_blocks a b st = merge_blocks b a st.
Proof.
  intros Pa Pb. unfold peek_size in *. unfold merge_blocks, get_size.
  repeat ((rewrite (bind_load _ _ _ _ _ _ Pa) || rewrite (bind_load _ _ _ _ _ _ Pb));
          cbv beta).
  replace (SIZEOF_HEADER + sb + sa) with (SIZEOF_HEADER + sa + sb) by ring.
  destruct (Z.gtb_spec a b), (Z.gtb_spec b a); try lia.
  - reflexivity.
  - reflexivity.
  - replace b with a by lia. reflexivity.
Qed.

End MergeMore.

(** Case on the comparisons of an address against the copied range. *)
Ltac bool_cases :=
  repeat match goal with
         | |- context [?x <? ?y] => destruct (Z.ltb_spec x y) as [?Hc | ?Hc]
         | |- context [?x <=? ?y] => destruct (Z.leb_spec x y) as [?Hc | ?Hc]
         | |- context [?x =? ?y] => destruct (Z.eqb_spec x y) as [?Hc | ?Hc]
         end; simpl.

Module Copy.

Section CopyLoop.
Variables (src sb db s : Z).
Hypothesis Hsrc : 0 < src.
Hypothesis Hsrc_end : src + SIZEOF_HEADER <= W.
Hypothesis Hsb : 0 < sb.
Hypothesis Hdb : 0 < db.
Hypothesis Hs : 0 <= s.
Hypothesis Hsb_end : sb + s <= W.
Hypothesis Hdb_end : db + s <= W.
Hypothesis Hdisj : db + s <= sb \/ sb + s <= db.
Hypothesis Hsize_field : db + s <= src + OFF_SIZE \/ src + OFF_SIZE + 8 <= db.

Lemma peek_byte (st : state) (a : Z) :
  0 < a -> a + 1 <= W -> peek st a 0 1 = Some (mem st a).
Proof.
  intros H1 H2. unfold peek. rewrite (proj2 (valid_iff _ _ _)) by arith.
  simpl. f_equal. rewrite Z.add_0_r. f_equal. lia.
Qed.

Lemma copy_loop_spec (n : nat) :
  forall (fuel : nat) (i : Z) (st : state),
  n = Z.to_nat (s - i) -> (n < fuel)%nat -> 0 <= i <= s ->
  peek_size st src = Some s ->
  exists m', copy_loop fuel src sb db i st = Ok (set_mem st m') tt /\
    forall x, m' x = if (db + i <=? x) && (x <? db + s)
                     then mem st (sb + (x - db)) mod 256 else mem st x.
Proof.
  induction n as [|n IH]; intros fuel i st Hn Hf Hi Ps;
    (destruct fuel as [|fuel]; [lia|]);
    unfold peek_size in Ps; cbn [copy_loop]; unfold get_size;
    rewrite (bind_load _ _ _ _ _ _ Ps); cbv beta.
  - replace (i <? s) with false by (symmetry; apply Z.ltb_ge; lia).
    exists (mem st). split; [destruct st; reflexivity|].
    intros x. bool_cases; reflexivity || lia.
  - replace (i <? s) with true by (symmetry; apply Z.ltb_lt; lia).
    replace ((sb + i) mod W) with (sb + i) by (symmetry; apply Z.mod_small; lia).
    replace ((db + i) mod W) with (db + i) by (symmetry; apply Z.mod_small; lia).
    replace ((i + 1) mod W) with (i + 1) by (symmetry; apply Z.mod_small; arith).
    rewrite (bind_load _ _ _ _ _ _ (peek_byte st (sb + i) ltac:(lia) ltac:(lia))); cbv beta.
    unfold store. rewrite (proj2 (valid_iff _ _ _)) by arith.
    fold (st_store st (db + i + 0) 1 (mem st (sb + i))).
    destruct (IH fuel (i + 1) (st_store st (db + i + 0) 1 (mem st (sb + i))))
      as [m' [Hrun Hm']]; [lia|lia|lia| |].
    + unfold peek_size. rewrite peek_store_other by arith. exact Ps.
    + exists m'. split; [exact Hrun|].
      intros x. rewrite Hm'. unfold st_store, set_mem; cbn [mem store_bytes].
      unfold upd. bool_cases; try lia; try reflexivity.
      * replace (sb + (x - db)) with (sb + i) by lia. reflexivity.
Qed.

End CopyLoop.

(** [copy_data(src, dst)] with [src->size = s], both data regions in the
    address space and disjoint, and [dst]'s data region clear of [src]'s
    size field: it needs [s + 1] loop steps, changes nothing but the [s]
    bytes of [dst]'s data region, and sets each of them to the
    corresponding byte of [src]'s data region. *)
Theorem copy_data_copies (fuel : nat) (st : state) (src dst s : Z) :
  0 < src -> 0 < dst -> 0 <= s ->
  src + SIZEOF_HEADER + s < W -> dst + SIZEOF_HEADER + s < W ->
  (dst + SIZEOF_HEADER + s <= src + SIZEOF_HEADER \/
   src + SIZEOF_HEADER + s <= dst + SIZEOF_HEADER) ->
  (dst + SIZEOF_HEADER + s <= src + OFF_SIZE \/ src + OFF_SIZE + 8 <= dst + SIZEOF_HEADER) ->
  peek_size st src = Some s ->
  (Z.to_nat s < fuel)%nat ->
  exists m', copy_data fuel src dst st = Ok (set_mem st m') tt /\
    forall x, m' x = if (dst + SIZEOF_HEADER <=? x) && (x <? dst + SIZEOF_HEADER + s)
                     then mem st (src + SIZEOF_HEADER + (x - (dst + SIZEOF_HEADER))) mod 256
                     else mem st x.
Proof.
  intros Hs Hd Hs0 Hse Hde Hdisj Hsf Ps Hf.
  unfold copy_data.
  replace ((src + SIZEOF_HEADER) mod W) with (src + SIZEOF_HEADER)
    by (symmetry; apply Z.mod_small; arith).
  replace ((dst + SIZEOF_HEADER) mod W) with (dst + SIZEOF_HEADER)
    by (symmetry; apply Z.mod_small; arith).
  destruct (copy_loop_spec src (src + SIZEOF_HEADER) (dst + SIZEOF_HEADER) s
              ltac:(arith) ltac:(arith) ltac:(arith) ltac:(arith) ltac:(arith)
              ltac:(arith) ltac:(arith) Hdisj Hsf (Z.to_nat s) fuel 0 st)
    as [m' [Hrun Hm']]; [f_equal; lia | exact Hf | lia | exact Ps |].
  exists m'. split; [exact Hrun|]. intros x. rewrite Hm'. rewrite Z.add_0_r. reflexivity.
Qed.

End Copy.

Module FreeMore.

Lemma last_default (l : list Z) (x d d' : Z) : last (x :: l) d = last (x :: l) d'.
Proof.
  revert x. induction l as [|y l IH]; intros x; [reflexivity|].
  change (last (y :: l) d = last (y :: l) d'). apply IH.
Qed.

Lemma walk_back_chain (run : list Z) :
  forall (fuel : nat) (st : state) (bound curr : Z),
  back_chain st bound curr run -> (length run < fuel)%nat ->
  walk_back fuel curr st = Ok st (last (curr :: run) curr).
Proof.
  induction run as [|p run IH]; intros fuel st bound curr Hc Hf;
    (destruct fuel as [|fuel]; [simpl in Hf; lia|]); cbn [walk_back].
  - rewrite bind_get_first. simpl in Hc. unfold run_end in Hc.
    destruct Hc as [E | [E [q [Pq [Hq0 [Hqb Pfq]]]]]].
    + rewrite <- E, Z.eqb_refl. reflexivity.
    + rewrite (proj2 (Z.eqb_neq _ _) E).
      unfold peek_prev, peek_free in *. unfold get_prev, get_free.
      rewrite (bind_load _ _ _ _ _ _ Pq); cbv beta.
      rewrite (bind_load _ _ _ _ _ _ Pfq); cbv beta. reflexivity.
  - destruct Hc as [E [Pp [Hp0 [Hpb [[f [Pf Hf0]] Hc]]]]].
    rewrite bind_get_first. rewrite (proj2 (Z.eqb_neq _ _) E).
    unfold peek_prev, peek_free in *. unfold get_prev, get_free.
    rewrite (bind_load _ _ _ _ _ _ Pp); cbv beta.
    rewrite (bind_load _ _ _ _ _ _ Pf); cbv beta.
    rewrite (proj2 (Z.eqb_neq _ _) Hf0).
    rewrite (bind_load _ _ _ _ _ _ Pp); cbv beta.
    rewrite (IH fuel st bound p Hc) by (simpl in Hf; lia).
    change (last (curr :: p :: run) curr) with (last (p :: run) curr).
    rewrite (last_default run p p curr). reflexivity.
Qed.

(** Setting the free byte of [h] does not disturb a chain lying below [h]. *)
Lemma back_chain_store_free (run : list Z) :
  forall (st : state) (h curr : Z),
  (curr = h \/ (0 < curr /\ curr + SIZEOF_HEADER <= h)) ->
  back_chain st h curr run ->
  back_chain (st_store st (h + OFF_FREE) 1 1) h curr run.
Proof.
  induction run as [|p run IH]; intros st h curr Hcur Hc; simpl in *.
  - unfold run_end in *. simpl.
    destruct Hc as [E | [E [q [Pq [Hq0 [Hqb Pfq]]]]]]; [left; exact E|].
    right. split; [exact E|]. exists q.
    unfold peek_prev, peek_free in *.
    rewrite !peek_store_other by arith. tauto.
  - destruct Hc as [E [Pp [Hp0 [Hpb [[f [Pf Hf0]] Hc]]]]].
    unfold peek_prev, peek_free in *.
    rewrite !peek_store_other by arith.
    repeat split; try assumption.
    + exists f. split; assumption.
    + apply IH; [right; lia | exact Hc].
Qed.

Lemma free_tail_run_exact (fuel : nat) (st : state) (h : Z) (run : list Z) :
  0 < h -> h + SIZEOF_HEADER < W ->
  peek_next st h = Some NULL ->
  back_chain st h h run ->
  (length run < fuel)%nat ->
  let l := last (h :: run) h in
  heap_start st <= l <= heap_limit st ->
  free fuel (h + SIZEOF_HEADER) st =
  Ok (let st1 := st_store st (h + OFF_FREE) 1 1 in
      set_brk_st (if l =? first st then set_first_st st1 NULL else st1) l) tt.
Proof.
  intros Hh HW Pn Hc Hf l Hl.
  unfold free.
  replace (h + SIZEOF_HEADER =? NULL) with false by (symmetry; apply Z.eqb_neq; arith).
  replace ((h + SIZEOF_HEADER - SIZEOF_HEADER) mod W) with h
    by (replace (h + SIZEOF_HEADER - SIZEOF_HEADER) with h by ring;
        symmetry; apply Z.mod_small; arith).
  cbv zeta. unfold set_free, get_next. unfold peek_next in Pn.
  rewrite bind_store by vld; cbv beta.
  rewrite (bind_load _ _ _ _ NULL) by (peek_simp; exact Pn); cbv beta.
  rewrite Z.eqb_refl. unfold release_tail.
  pose proof (back_chain_store_free run st h h (or_introl eq_refl) Hc) as Hc'.
  unfold bind at 1.
  rewrite (walk_back_chain run fuel _ h h Hc' Hf); cbv beta. fold l.
  unfold bind at 1, get_first. cbv beta. simpl first.
  destruct (l =? first st).
  - unfold bind, set_first, brk. simpl.
    replace ((heap_start st <=? l) && (l <=? heap_limit st)) with true
      by (symmetry; apply andb_true_iff; split; apply Z.leb_le; lia).
    reflexivity.
  - unfold bind, brk, ret. simpl.
    replace ((heap_start st <=? l) && (l <=? heap_limit st)) with true
      by (symmetry; apply andb_true_iff; split; apply Z.leb_le; lia).
    reflexivity.
Qed.

(** On a header reached from [first] (at its first occurrence on the
    chain), [free_with_caution] does exactly what [free] does, with the
    steps of its scan taken out of the loop budget. *)
Theorem caution_free_tracked (st : state) (h : Z) (k fuel : nat) :
  0 < h -> h + SIZEOF_HEADER < W ->
  nth_header st k (first st) = Some h ->
  (forall j, (j < k)%nat -> nth_header st j (first st) <> Some h) ->
  free_with_caution (k + S fuel) (h + SIZEOF_HEADER) st = free fuel (h + SIZEOF_HEADER) st.
Proof.
  intros Hh HW Hk Hbefore.
  unfold free_with_caution, get_first, bind at 1. cbv beta.
  replace (h + SIZEOF_HEADER =? NULL) with false by (symmetry; apply Z.eqb_neq; arith).
  replace ((h + SIZEOF_HEADER - SIZEOF_HEADER) mod W) with h
    by (replace (h + SIZEOF_HEADER - SIZEOF_HEADER) with h by ring;
        symmetry; apply Z.mod_small; arith).
  cbv zeta.
  assert (Hgen : forall k curr, nth_header st k curr = Some h ->
            (forall j, (j < k)%nat -> nth_header st j curr <> Some h) ->
            caution_scan (k + S fuel) h curr st = free fuel (h + SIZEOF_HEADER) st).
  { clear k Hk Hbefore. induction k as [|k IH]; intros curr Hk Hb.
    - simpl in Hk. destruct (Z.eqb_spec curr NULL); [discriminate|].
      injection Hk as <-. cbn [Nat.add caution_scan].
      rewrite (proj2 (Z.eqb_neq _ _) n), Z.eqb_refl.
      unfold free.
      replace (curr + SIZEOF_HEADER =? NULL) with false
        by (symmetry; apply Z.eqb_neq; arith).
      replace ((curr + SIZEOF_HEADER - SIZEOF_HEADER) mod W) with curr
        by (replace (curr + SIZEOF_HEADER - SIZEOF_HEADER) with curr by ring;
            symmetry; apply Z.mod_small; arith).
      reflexivity.
    - simpl in Hk. destruct (Z.eqb_spec curr NULL) as [E|E]; [discriminate|].
      destruct (peek_next st curr) as [nx|] eqn:Pn; [|discriminate].
      assert (Hne : curr <> h).
      { intros ->. apply (Hb O); [lia|]. simpl.
        rewrite (proj2 (Z.eqb_neq _ _) E). reflexivity. }
      cbn [Nat.add caution_scan].
      rewrite (proj2 (Z.eqb_neq _ _) E), (proj2 (Z.eqb_neq _ _) Hne).
      unfold get_next. unfold peek_next in Pn.
      rewrite (bind_load _ _ _ _ _ _ Pn); cbv beta.
      apply IH; [exact Hk|].
      intros j Hj Hjn. apply (Hb (S j)); [lia|]. simpl.
      rewrite (proj2 (Z.eqb_neq _ _) E). unfold peek_next. rewrite Pn. exact Hjn. }
  apply Hgen; assumption.
Qed.

(** [free] of a tail block [h] (its [next] is NULL): the free byte of [h]
    is set, the walk goes back over the maximal run of free predecessors
    to its first header [l]; if [l] is [first] the directory becomes empty;
    the break is moved to [l].  Nothing else changes: in particular the
    [next] link of the in-use block before the run still points into the
    released region. *)
Theorem free_tail_releases_run (fuel : nat) (st : state) (h : Z) (run : list Z) :
  0 < h -> h + SIZEOF_HEADER < W ->
  peek_next st h = Some NULL ->
  back_chain st h h run ->
  (length run < fuel)%nat ->
  let l := last (h :: run) h in
  heap_start st <= l <= heap_limit st ->
  free fuel (h + SIZEOF_HEADER) st =
  Ok (let st1 := st_store st (h + OFF_FREE) 1 1 in
      set_brk_st (if l =? first st then set_first_st st1 NULL else st1) l) tt.
Proof. apply free_tail_run_exact. Qed.

(** [free] of a block that has a successor only raises its free flag:
    no other byte changes, and neither [first] nor the break moves. *)
Theorem free_interior_marks (fuel : nat) (st : state) (h nx : Z) :
  0 < h -> h + SIZEOF_HEADER < W ->
  peek_next st h = Some nx -> nx <> NULL ->
  free fuel (h + SIZEOF_HEADER) st = Ok (st_store st (h + OFF_FREE) 1 1) tt.
Proof.
  intros Hh HW Pn Hnx.
  unfold free.
  replace (h + SIZEOF_HEADER =? NULL) with false by (symmetry; apply Z.eqb_neq; arith).
  replace ((h + SIZEOF_HEADER - SIZEOF_HEADER) mod W) with h
    by (replace (h + SIZEOF_HEADER - SIZEOF_HEADER) with h by ring;
        symmetry; apply Z.mod_small; arith).
  cbv zeta. unfold set_free, get_next. unfold peek_next in Pn.
  rewrite bind_store by vld; cbv beta.
  rewrite (bind_load _ _ _ _ nx) by (peek_simp; exact Pn); cbv beta.
  rewrite (proj2 (Z.eqb_neq _ _) Hnx). reflexivity.
Qed.

End FreeMore.

Module MallocMore.

Lemma malloc_empty_exact (fuel : nat) (st : state) (size : Z) :
  first st = NULL -> 0 < brk_ptr st ->
  0 <= size -> size + SIZEOF_HEADER < 2 ^ 63 ->
  heap_start st <= brk_ptr st + clamp size + SIZEOF_HEADER <= heap_limit st ->
  brk_ptr st + clamp size + SIZEOF_HEADER < W ->
  let b := brk_ptr st in
  malloc (S fuel) size st =
  Ok (set_first_st
        (st_store (st_store (st_store (st_store
           (set_brk_st st (b + clamp size + SIZEOF_HEADER))
           (b + OFF_PREV) 8 NULL) (b + OFF_NEXT) 8 NULL)
           (b + OFF_SIZE) 8 (clamp size)) (b + OFF_FREE) 1 0) b)
     (b + SIZEOF_HEADER).
Proof.
  intros Hf Hb Hs Hs63 Hroom HW b.
  assert (Hc : MIN_BLOCK_SIZE <= clamp size /\ clamp size <= Z.max size MIN_BLOCK_SIZE).
  { unfold clamp. destruct (Z.ltb_spec size MIN_BLOCK_SIZE); lia. }
  unfold malloc. fold (clamp size).
  rewrite bind_get_first, Hf. cbn [scan]. rewrite Z.eqb_refl, bind_ret.
  unfold sbrk, bind at 1. cbv beta.
  replace (to_intptr ((clamp size + SIZEOF_HEADER) mod W)) with (clamp size + SIZEOF_HEADER)
    by (unfold to_intptr; rewrite Z.mod_small by arith;
        destruct (Z.ltb_spec (clamp size + SIZEOF_HEADER) (2 ^ 63)); arith).
  replace ((heap_start st <=? brk_ptr st + (clamp size + SIZEOF_HEADER)) &&
           (brk_ptr st + (clamp size + SIZEOF_HEADER) <=? heap_limit st)) with true
    by (symmetry; apply andb_true_iff; split; apply Z.leb_le; lia).
  fold b. unfold set_prev, set_next, set_size, set_free.
  run. rewrite bind_get_first. simpl first. rewrite Hf, Z.eqb_refl.
  unfold bind, set_first, ret.
  rewrite Z.mod_small by arith. replace (b + (clamp size + SIZEOF_HEADER))
    with (b + clamp size + SIZEOF_HEADER) by ring. reflexivity.
Qed.

(** [malloc] on an empty directory, when the break can grow: the new
    header sits at the old break [b], becomes [first], is in use, has no
    neighbours and the size rounded up to [MIN_BLOCK_SIZE]; the break
    advances by that size plus [sizeof(Header)]; [b + sizeof(Header)] is
    returned. *)
Theorem malloc_empty_grows (fuel : nat) (st : state) (size : Z) :
  first st = NULL -> 0 < brk_ptr st ->
  0 <= size -> size + SIZEOF_HEADER < 2 ^ 63 ->
  heap_start st <= brk_ptr st + clamp size + SIZEOF_HEADER <= heap_limit st ->
  brk_ptr st + clamp size + SIZEOF_HEADER < W ->
  exists st',
    malloc (S fuel) size st = Ok st' (brk_ptr st + SIZEOF_HEADER) /\
    first st' = brk_ptr st /\
    brk_ptr st' = brk_ptr st + clamp size + SIZEOF_HEADER /\
    peek_next st' (brk_ptr st) = Some NULL /\
    peek_prev st' (brk_ptr st) = Some NULL /\
    peek_size st' (brk_ptr st) = Some (Z.max size MIN_BLOCK_SIZE) /\
    peek_free st' (brk_ptr st) = Some 0.
Proof.
  intros Hf Hb Hs Hs63 Hroom HW.
  rewrite (malloc_empty_exact fuel st size Hf Hb Hs Hs63 Hroom HW).
  eexists. split; [reflexivity|].
  assert (Hc : clamp size = Z.max size MIN_BLOCK_SIZE).
  { unfold clamp. destruct (Z.ltb_spec size MIN_BLOCK_SIZE); arith. }
  unfold peek_next, peek_prev, peek_size, peek_free.
  split; [reflexivity|]. split; [reflexivity|].
  peek_simp. rewrite <- !W_eq, <- Hc.
  repeat split; f_equal; try reflexivity. apply Z.mod_small; arith.
Qed.

(** First fit without growth: when the head block is free, has no
    successor, and its size [s] fits the rounded request with a remainder
    that [split_block] rejects, [malloc] clears its free byte and returns
    it; nothing else changes. *)
Theorem malloc_head_exact_fit (fuel : nat) (st : state) (size s f : Z) :
  0 < first st -> first st + SIZEOF_HEADER < W ->
  peek_free st (first st) = Some f -> f <> 0 ->
  peek_next st (first st) = Some NULL ->
  peek_size st (first st) = Some s ->
  clamp size <= s ->
  (s - clamp size - SIZEOF_HEADER_PTR) mod W < MIN_BLOCK_SIZE ->
  malloc (S (S fuel)) size st =
  Ok (st_store st (first st + OFF_FREE) 1 0) (first st + SIZEOF_HEADER).
Proof.
  intros H0 HW Pf Hf0 Pn Ps Hfit Hrej.
  unfold peek_free, peek_next, peek_size in *.
  unfold malloc. fold (clamp size). rewrite bind_get_first.
  set (h := first st) in *.
  cbn [scan]. rewrite (proj2 (Z.eqb_neq _ _) (ltac:(arith) : h <> NULL)).
  rewrite bind_assoc. cbn [merge_run]. unfold get_free, get_next.
  rewrite bind_assoc, (bind_load _ _ _ _ _ _ Pf); cbv beta.
  rewrite (proj2 (Z.eqb_neq _ _) Hf0).
  rewrite bind_assoc, (bind_load _ _ _ _ _ _ Pn); cbv beta.
  rewrite Z.eqb_refl, bind_ret. cbv zeta.
  rewrite bind_assoc, (bind_load _ _ _ _ _ _ Pf); cbv beta.
  rewrite (proj2 (Z.eqb_neq _ _) Hf0).
  unfold get_size.
  rewrite bind_assoc, (bind_load _ _ _ _ _ _ Ps); cbv beta.
  rewrite (proj2 (Z.leb_le _ _) Hfit).
  rewrite !bind_assoc. unfold split_block, get_size.
  rewrite bind_assoc, (bind_load _ _ _ _ _ _ Ps); cbv beta zeta.
  rewrite (proj2 (Z.ltb_lt _ _) Hrej).
  rewrite bind_ret.
  unfold set_free. rewrite bind_assoc.
  rewrite bind_store by vld; cbv beta.
  rewrite bind_ret. cbv iota. unfold ret. rewrite Z.mod_small by arith. reflexivity.
Qed.

(** First fit with a split: when the head block is free, has an in-use
    successor [nx], and leaves room for a remainder of at least
    [MIN_BLOCK_SIZE], [malloc] returns the head's data address, marks the
    head in use, and links a new free header at [head + sizeof(Header) +
    size] between the head and [nx]; the head keeps its old size field, and
    neither [first] nor the break moves. *)
Theorem malloc_head_split (fuel : nat) (st : state) (size s f nx : Z) :
  0 < first st -> 0 <= size ->
  peek_free st (first st) = Some f -> f <> 0 ->
  peek_next st (first st) = Some nx -> peek_free st nx = Some 0 ->
  peek_size st (first st) = Some s ->
  clamp size <= s ->
  MIN_BLOCK_SIZE <= (s - clamp size - SIZEOF_HEADER_PTR) mod W ->
  first st + SIZEOF_HEADER + clamp size + SIZEOF_HEADER <= nx -> nx + SIZEOF_HEADER <= W ->
  exists st',
    malloc (S (S fuel)) size st = Ok st' (first st + SIZEOF_HEADER) /\
    first st' = first st /\ brk_ptr st' = brk_ptr st /\
    peek_free st' (first st) = Some 0 /\
    peek_size st' (first st) = Some s /\
    peek_next st' (first st) = Some (first st + SIZEOF_HEADER + clamp size) /\
    peek_prev st' (first st + SIZEOF_HEADER + clamp size) = Some (first st) /\
    peek_next st' (first st + SIZEOF_HEADER + clamp size) = Some nx /\
    peek_size st' (first st + SIZEOF_HEADER + clamp size) =
      Some ((s - clamp size - SIZEOF_HEADER_PTR) mod W) /\
    peek_free st' (first st + SIZEOF_HEADER + clamp size) = Some 1 /\
    peek_prev st' nx = Some (first st + SIZEOF_HEADER + clamp size).
Proof.
  intros H0 Hsz Pf Hf0 Pn Pnf Ps Hfit Hchk Hnx HW.
  assert (Hc : MIN_BLOCK_SIZE <= clamp size).
  { unfold clamp. destruct (Z.ltb_spec size MIN_BLOCK_SIZE); lia. }
  unfold peek_free, peek_next, peek_size, peek_prev in *.
  unfold malloc. fold (clamp size). rewrite bind_get_first.
  set (h := first st) in *. set (c := clamp size) in *.
  cbn [scan]. rewrite (proj2 (Z.eqb_neq _ _) (ltac:(arith) : h <> NULL)).
  rewrite bind_assoc. cbn [merge_run]. unfold get_free, get_next.
  rewrite bind_assoc, (bind_load _ _ _ _ _ _ Pf); cbv beta.
  rewrite (proj2 (Z.eqb_neq _ _) Hf0).
  rewrite bind_assoc, (bind_load _ _ _ _ _ _ Pn); cbv beta.
  rewrite (proj2 (Z.eqb_neq _ _) (ltac:(arith) : nx <> NULL)).
  rewrite bind_assoc, (bind_load _ _ _ _ _ _ Pn); cbv beta.
  rewrite bind_assoc, (bind_load _ _ _ _ _ _ Pnf); cbv beta.
  rewrite Z.eqb_refl, bind_ret. cbv zeta.
  rewrite bind_assoc, (bind_load _ _ _ _ _ _ Pf); cbv beta.
  rewrite (proj2 (Z.eqb_neq _ _) Hf0).
  unfold get_size.
  rewrite bind_assoc, (bind_load _ _ _ _ _ _ Ps); cbv beta.
  rewrite (proj2 (Z.leb_le _ _) Hfit).
  rewrite !bind_assoc. unfold split_block, get_size.
  rewrite bind_assoc, (bind_load _ _ _ _ _ _ Ps); cbv beta zeta.
  replace ((s - c - SIZEOF_HEADER_PTR) mod W <? MIN_BLOCK_SIZE) with false
    by (symmetry; apply Z.ltb_ge; exact Hchk).
  replace ((h + SIZEOF_HEADER + c) mod W) with (h + SIZEOF_HEADER + c)
    by (symmetry; apply Z.mod_small; arith).
  pose proof (Z.mod_pos_bound (s - c - SIZEOF_HEADER_PTR) W ltac:(unfold W; lia)).
  unfold set_prev, set_next, set_size, set_free, get_next.
  run.
  cbv iota. unfold ret. rewrite (Z.mod_small (h + SIZEOF_HEADER)) by arith.
  eexists. split; [reflexivity|].
  split; [reflexivity|]. split; [reflexivity|].
  peek_simp. rewrite <- !W_eq.
  repeat split; try assumption; f_equal; try reflexivity;
    first [ apply Z.mod_small; arith | apply Z.mod_mod; unfold W; lia ].
Qed.

End MallocMore.

Module Compose.


End Compose.

Module ReallocMore.

(** [realloc] of the tail block [h] to any [size] whose difference with the
    current size [s] fits an [intptr_t]: the break moves by [size - s] (the
    [size_t] difference converts back to it, so shrinking lowers the break)
    and the size field becomes [size]; the same pointer is returned. *)
Theorem realloc_tail_resizes (fuel : nat) (st : state) (h s size : Z) :
  0 < h -> h + SIZEOF_HEADER < W ->
  peek_size st h = Some s -> peek_next st h = Some NULL ->
  0 <= size < W -> - 2 ^ 63 <= size - s < 2 ^ 63 ->
  heap_start st <= brk_ptr st + (size - s) <= heap_limit st ->
  realloc fuel (h + SIZEOF_HEADER) size st =
  Ok (st_store (set_brk_st st (brk_ptr st + (size - s))) (h + OFF_SIZE) 8 size)
     (h + SIZEOF_HEADER).
Proof.
  intros Hh HW Ps Pn Hsz Hd Hbrk.
  unfold peek_size, peek_next in *.
  unfold realloc.
  replace (h + SIZEOF_HEADER =? NULL) with false by (symmetry; apply Z.eqb_neq; arith).
  replace ((h + SIZEOF_HEADER - SIZEOF_HEADER) mod W) with h
    by (replace (h + SIZEOF_HEADER - SIZEOF_HEADER) with h by ring;
        symmetry; apply Z.mod_small; arith).
  cbv zeta. unfold get_size, get_next.
  rewrite (bind_load _ _ _ _ _ _ Ps); cbv beta.
  rewrite size_t_not_negative.
  rewrite (bind_load _ _ _ _ _ _ Pn); cbv beta. rewrite Z.eqb_refl.
  replace (to_intptr ((size - s) mod W)) with (size - s).
  - unfold sbrk, bind at 1. cbv beta.
    replace ((heap_start st <=? brk_ptr st + (size - s)) &&
             (brk_ptr st + (size - s) <=? heap_limit st)) with true
      by (symmetry; apply andb_true_iff; split; apply Z.leb_le; lia).
    unfold set_size. rewrite bind_store by vld. reflexivity.
  - unfold to_intptr. destruct (Z.leb_spec 0 (size - s)).
    + rewrite Z.mod_small by arith.
      replace (size - s <? 2 ^ 63) with true by (symmetry; apply Z.ltb_lt; lia).
      reflexivity.
    + replace ((size - s) mod W) with (size - s + W).
      * replace (size - s + W <? 2 ^ 63) with false
          by (symmetry; apply Z.ltb_ge; arith). ring.
      * apply Z.mod_unique_pos with (q := -1); arith.
Qed.

(** In-place growth by absorption: the block [h] (size [s], in use or not)
    is followed right after its data by a free block [n1] (size [s1]) whose
    successor [n2] is in use; when [s1] covers the growth [size - s] and
    [split_block] rejects the remainder, [realloc] merges all of [n1] into
    [h]: [h.size] becomes [sizeof(Header) + s + s1], [h.next = n2],
    [n2.prev = h], [h]'s free byte is kept, and the same pointer is
    returned. *)
Theorem realloc_absorbs_next (fuel : nat) (st : state) (h s n1 s1 f1 n2 fh size : Z) :
  0 < h -> 0 <= s -> 0 <= s1 ->
  n1 = h + SIZEOF_HEADER + s ->
  n1 + SIZEOF_HEADER + s1 <= n2 -> n2 + SIZEOF_HEADER < W ->
  peek_size st h = Some s -> peek_next st h = Some n1 -> peek_free st h = Some fh ->
  peek_size st n1 = Some s1 -> peek_free st n1 = Some f1 -> f1 <> 0 ->
  peek_next st n1 = Some n2 -> peek_free st n2 = Some 0 ->
  s <= size < W -> size - s <= s1 ->
  (s1 - (size - s) - SIZEOF_HEADER_PTR) mod W < MIN_BLOCK_SIZE ->
  exists st',
    realloc (S fuel) (h + SIZEOF_HEADER) size st = Ok st' (h + SIZEOF_HEADER) /\
    peek_size st' h = Some (SIZEOF_HEADER + s + s1) /\
    peek_next st' h = Some n2 /\
    peek_prev st' n2 = Some h /\
    peek_free st' h = Some fh.
Proof.
  intros Hh Hs Hs1 Hn1 Hn2 HW Ps Pn Pfh Ps1 Pf1 Hf1 Pn1 Pf2 Hsz Hfit Hrej.
  unfold peek_size, peek_next, peek_free, peek_prev in *.
  unfold realloc.
  replace (h + SIZEOF_HEADER =? NULL) with false by (symmetry; apply Z.eqb_neq; arith).
  replace ((h + SIZEOF_HEADER - SIZEOF_HEADER) mod W) with h
    by (replace (h + SIZEOF_HEADER - SIZEOF_HEADER) with h by ring;
        symmetry; apply Z.mod_small; arith).
  cbv zeta. unfold get_size, get_next, get_free.
  rewrite (bind_load _ _ _ _ _ _ Ps); cbv beta.
  rewrite size_t_not_negative.
  replace ((size - s) mod W) with (size - s) by (symmetry; apply Z.mod_small; arith).
  rewrite (bind_load _ _ _ _ _ _ Pn); cbv beta.
  replace (n1 =? NULL) with false by (symmetry; apply Z.eqb_neq; arith).
  rewrite (bind_load _ _ _ _ _ _ Pn); cbv beta.
  rewrite (bind_load _ _ _ _ _ _ Pf1); cbv beta.
  rewrite (proj2 (Z.eqb_neq _ _) Hf1).
  unfold bind at 1. cbn [absorb_loop]. unfold get_next, get_free.
  rewrite (bind_load _ _ _ _ _ _ Pn); cbv beta.
  rewrite (bind_load _ _ _ _ _ _ Pn1); cbv beta.
  rewrite (bind_load _ _ _ _ _ _ Pf2); cbv beta.
  rewrite Z.eqb_refl. unfold ret at 1.
  rewrite (bind_load _ _ _ _ _ _ Pn); cbv beta.
  rewrite (bind_load _ _ _ _ _ _ Ps1); cbv beta.
  rewrite (proj2 (Z.leb_le _ _) Hfit).
  rewrite (bind_load _ _ _ _ _ _ Pn); cbv beta.
  unfold bind at 1. unfold split_block, get_size.
  rewrite (bind_load _ _ _ _ _ _ Ps1); cbv beta zeta.
  rewrite (proj2 (Z.ltb_lt _ _) Hrej). unfold ret at 1.
  rewrite (bind_load _ _ _ _ _ _ Pn); cbv beta.
  unfold merge_blocks.
  replace (h >? n1) with false by (symmetry; rewrite Z.gtb_ltb; apply Z.ltb_ge; arith).
  unfold get_size, get_next, set_size, set_next, set_prev.
  run.
  replace (n2 =? NULL) with false by (symmetry; apply Z.eqb_neq; arith).
  run.
  eexists. split; [reflexivity|].
  peek_simp. rewrite <- !W_eq.
  repeat split; try assumption; f_equal; rewrite ?Z.mod_mod by arith;
    apply Z.mod_small; arith.
Qed.


End ReallocMore.

(** * Witnesses of the further properties *)

Ltac close_concrete :=
  first [ vm_compute; reflexivity | vm_compute; congruence
        | split; vm_compute; congruence | vm_compute; lia ].


Lemma split_block_links_witness :
  exists st',
    split_block 4096 20 L_two = Ok st' (4096 + SIZEOF_HEADER + 20) /\
    peek_prev st' (4096 + SIZEOF_HEADER + 20) = Some 4096 /\
    peek_next st' (4096 + SIZEOF_HEADER + 20) = Some 4228 /\
    peek_size st' (4096 + SIZEOF_HEADER + 20) = Some ((100 - 20 - SIZEOF_HEADER_PTR) mod W) /\
    peek_free st' (4096 + SIZEOF_HEADER + 20) = Some 1 /\
    peek_prev st' 4228 = Some (4096 + SIZEOF_HEADER + 20) /\
    peek_next st' 4096 = Some (4096 + SIZEOF_HEADER + 20) /\
    peek_size st' 4096 = Some 100 /\
    peek_free st' 4096 = Some 0.
Proof. apply (SplitMore.split_block_links L_two 4096 20 100 4228 0); close_concrete. Defined.

Lemma merge_blocks_comm_witness :
  merge_blocks 4096 4228 L_three = merge_blocks 4228 4096 L_three.
Proof. apply (MergeMore.merge_blocks_comm L_three 4096 4228 100 40); close_concrete. Defined.

Lemma copy_data_copies_witness :
  exists m', copy_data 50 4228 4096 L_two = Ok (set_mem L_two m') tt /\
    forall x, m' x = if (4096 + SIZEOF_HEADER <=? x) && (x <? 4096 + SIZEOF_HEADER + 40)
                     then mem L_two (4228 + SIZEOF_HEADER + (x - (4096 + SIZEOF_HEADER))) mod 256
                     else mem L_two x.
Proof.
  apply (Copy.copy_data_copies 50 L_two 4228 4096 40);
    first [ left; vm_compute; congruence | close_concrete ].
Defined.

Lemma caution_free_tracked_witness :
  free_with_caution (1 + S 5) (4228 + SIZEOF_HEADER) L_two = free 5 (4228 + SIZEOF_HEADER) L_two.
Proof.
  apply (FreeMore.caution_free_tracked L_two 4228 1 5).
  - vm_compute. reflexivity.
  - vm_compute. reflexivity.
  - vm_compute. reflexivity.
  - intros j Hj. destruct j; [vm_compute; congruence | lia].
Defined.

Lemma free_tail_releases_run_witness :
  free 5 (4300 + SIZEOF_HEADER) L_three =
  Ok (let st1 := st_store L_three (4300 + OFF_FREE) 1 1 in
      set_brk_st (if 4228 =? first L_three then set_first_st st1 NULL else st1) 4228) tt.
Proof.
  apply (FreeMore.free_tail_releases_run 5 L_three 4300 (4228 :: nil)).
  - vm_compute. reflexivity.
  - vm_compute. reflexivity.
  - vm_compute. reflexivity.
  - cbn [back_chain run_end].
    split; [vm_compute; congruence|]. split; [vm_compute; reflexivity|].
    split; [vm_compute; reflexivity|]. split; [vm_compute; congruence|].
    split; [exists 1; split; [vm_compute; reflexivity | congruence]|].
    right. split; [vm_compute; congruence|]. exists 4096.
    split; [vm_compute; reflexivity|]. split; [vm_compute; reflexivity|].
    split; [vm_compute; congruence | vm_compute; reflexivity].
  - cbn. lia.
  - split; vm_compute; congruence.
Defined.

Lemma malloc_empty_grows_witness :
  exists st',
    malloc 4 10 (init_state HEAP0 LIMIT0) =
      Ok st' (brk_ptr (init_state HEAP0 LIMIT0) + SIZEOF_HEADER) /\
    first st' = brk_ptr (init_state HEAP0 LIMIT0) /\
    brk_ptr st' = brk_ptr (init_state HEAP0 LIMIT0) + clamp 10 + SIZEOF_HEADER /\
    peek_next st' (brk_ptr (init_state HEAP0 LIMIT0)) = Some NULL /\
    peek_prev st' (brk_ptr (init_state HEAP0 LIMIT0)) = Some NULL /\
    peek_size st' (brk_ptr (init_state HEAP0 LIMIT0)) = Some (Z.max 10 MIN_BLOCK_SIZE) /\
    peek_free st' (brk_ptr (init_state HEAP0 LIMIT0)) = Some 0.
Proof. apply (MallocMore.malloc_empty_grows 3 (init_state HEAP0 LIMIT0) 10); close_concrete. Defined.

Lemma malloc_head_exact_fit_witness :
  malloc (S (S 3)) 20 L_fit =
  Ok (st_store L_fit (first L_fit + OFF_FREE) 1 0) (first L_fit + SIZEOF_HEADER).
Proof. apply (MallocMore.malloc_head_exact_fit 3 L_fit 20 40 1); close_concrete. Defined.


Lemma realloc_tail_resizes_witness :
  realloc 5 (4228 + SIZEOF_HEADER) 24 L_two =
  Ok (st_store (set_brk_st L_two (brk_ptr L_two + (24 - 40))) (4228 + OFF_SIZE) 8 24)
     (4228 + SIZEOF_HEADER).
Proof. apply (ReallocMore.realloc_tail_resizes 5 L_two 4228 40 24); close_concrete. Defined.

Lemma realloc_absorbs_next_witness :
  exists st',
    realloc 6 (4096 + SIZEOF_HEADER) 50 L_absorb3 = Ok st' (4096 + SIZEOF_HEADER) /\
    peek_size st' 4096 = Some (SIZEOF_HEADER + 40 + 40) /\
    peek_next st' 4096 = Some 4240 /\
    peek_prev st' 4240 = Some 4096 /\
    peek_free st' 4096 = Some 0.
Proof.
  apply (ReallocMore.realloc_absorbs_next 5 L_absorb3 4096 40 4168 40 1 4240 0 50);
    close_concrete.
Defined.

Lemma free_interior_marks_witness :
  free 5 (4096 + SIZEOF_HEADER) L_two = Ok (st_store L_two (4096 + OFF_FREE) 1 1) tt.
Proof.
  apply (FreeMore.free_interior_marks 5 L_two 4096 4228);
    [vm_compute; reflexivity .. | vm_compute; congruence].
Defined.

Lemma malloc_head_split_witness :
  exists st',
    malloc (S (S 3)) 20 L_split = Ok st' (first L_split + SIZEOF_HEADER) /\
    first st' = first L_split /\ brk_ptr st' = brk_ptr L_split /\
    peek_free st' (first L_split) = Some 0 /\
    peek_size st' (first L_split) = Some 72 /\
    peek_next st' (first L_split) = Some (first L_split + SIZEOF_HEADER + clamp 20) /\
    peek_prev st' (first L_split + SIZEOF_HEADER + clamp 20) = Some (first L_split) /\
    peek_next st' (first L_split + SIZEOF_HEADER + clamp 20) = Some 4200 /\
    peek_size st' (first L_split + SIZEOF_HEADER + clamp 20) =
      Some ((72 - clamp 20 - SIZEOF_HEADER_PTR) mod W) /\
    peek_free st' (first L_split + SIZEOF_HEADER + clamp 20) = Some 1 /\
    peek_prev st' 4200 = Some (first L_split + SIZEOF_HEADER + clamp 20).
Proof.
  apply (MallocMore.malloc_head_split 3 L_split 20 72 1 4200); close_concrete.
Defined.
